(** * pyatv.conf: configuration of an Apple TV and its services

    A shallow embedding of [pyatv/conf.py]: the service classes
    ([BaseService], [DmapService], [MrpService], [AirPlayService]) and the
    device class [AppleTV] with its registry of services, followed by the
    properties of the registry, of the protocol preference and of the
    supersession rule. The string representations ([__str__]) format their
    output with [convert.protocol_str], a helper of another module, and are
    left out. *)

From Stdlib Require Import ZArith String.
From stdpp Require Import base option list gmap strings.

Local Open Scope Z_scope.

(** ** Python values and effects *)

(** The values that flow through [superseeded_by]: [login_id] is [None] or a
    [str], and [not a and b] evaluates to [False] or to [b] itself. *)
Inductive PyVal : Type :=
  | PyNone
  | PyBool (b : bool)
  | PyStr (s : string).

(** Truth value testing, as [if v] and [not v] do it. *)
Definition truthy (v : PyVal) : bool :=
  match v with
  | PyNone => false
  | PyBool b => b
  | PyStr EmptyString => false
  | PyStr (String _ _) => true
  end.

(** [a and b] with a boolean left operand: [a] when it is false, else [b]. *)
Definition py_and (a : bool) (b : PyVal) : PyVal :=
  if a then b else PyBool false.

(** [x or default] on an optional integer: [None] and [0] are both falsy. *)
Definition py_or (x : option Z) (default : Z) : Z :=
  match x with
  | None => default
  | Some v => if v =? 0 then default else v
  end.

Inductive Exception : Type :=
  | KeyError (key : Z).

Inductive Outcome (A : Type) : Type :=
  | Return (a : A)
  | Raise (e : Exception).
Arguments Return {A} a.
Arguments Raise {A} e.

(** A method body: it runs on a state [S] (the object it mutates, or the
    standard output) and either returns a value or raises. *)
Definition Py (S A : Type) : Type := S -> Outcome A * S.

Definition ret {S A} (a : A) : Py S A := fun s => (Return a, s).

Definition raise {S A} (e : Exception) : Py S A := fun s => (Raise e, s).

Definition bind {S A B} (m : Py S A) (k : A -> Py S B) : Py S B :=
  fun s =>
    match m s with
    | (Return a, s') => k a s'
    | (Raise e, s') => (Raise e, s')
    end.

Definition get {S} : Py S S := fun s => (Return s, s).

Definition put {S} (s : S) : Py S unit := fun _ => (Return tt, s).

Notation "'let!' x ':=' m 'in' k" := (bind m (fun x => k))
  (at level 10, x name, m at level 100, k at level 200).
Notation "m1 ';;' m2" := (bind m1 (fun _ => m2))
  (at level 100, m2 at level 200, right associativity).

(** The value a call returned, if it did not raise, and the state it left. *)
Definition eval {S A} (m : Py S A) (s : S) : Outcome A := fst (m s).
Definition exec {S A} (m : Py S A) (s : S) : S := snd (m s).

(** ** Services *)

(** A service object: its class and its attributes as [__init__] stores them.
    Only a [DmapService] has a [login_id]. *)
Inductive Service : Type :=
  | Base (protocol : Z) (port : Z)
  | Dmap (protocol : Z) (port : Z) (login_id : option string)
  | Mrp (protocol : Z) (port : Z)
  | AirPlay (protocol : Z) (port : Z).

Inductive ServiceClass : Type :=
  | BaseService_class
  | DmapService_class
  | MrpService_class
  | AirPlayService_class.

Definition class_of (s : Service) : ServiceClass :=
  match s with
  | Base _ _ => BaseService_class
  | Dmap _ _ _ => DmapService_class
  | Mrp _ _ => MrpService_class
  | AirPlay _ _ => AirPlayService_class
  end.

Definition protocol (s : Service) : Z :=
  match s with
  | Base p _ | Dmap p _ _ | Mrp p _ | AirPlay p _ => p
  end.

Definition port (s : Service) : Z :=
  match s with
  | Base _ p | Dmap _ p _ | Mrp _ p | AirPlay _ p => p
  end.

(** [self.login_id] as a Python value. *)
Definition login_val (login_id : option string) : PyVal :=
  match login_id with
  | None => PyNone
  | Some s => PyStr s
  end.

(** [is_usable]: [BaseService] answers [False], [DmapService] answers
    [self.login_id is not None], [MrpService] answers [True]; [AirPlayService]
    inherits the base answer. *)
Definition is_usable (self : Service) : bool :=
  match self with
  | Base _ _ => false
  | Dmap _ _ login_id =>
      match login_id with
      | None => false
      | Some _ => true
      end
  | Mrp _ _ => true
  | AirPlay _ _ => false
  end.

(** [superseeded_by]: only [DmapService] overrides the base method, which
    answers [False]. The argument is [None] or a service object; an object
    is always truthy, so [not other_service] holds for [None] alone. The
    class test [other_service.__class__ != self.__class__] is the match on
    the argument's constructor: past it the argument has a [login_id]. *)
Definition superseeded_by (self : Service) (other_service : option Service)
  : PyVal :=
  match self with
  | Dmap self_protocol self_port self_login_id =>
      match other_service with
      | None => PyBool false
      | Some (Dmap other_protocol other_port other_login_id) =>
          if negb (other_protocol =? self_protocol)
             || negb (other_port =? self_port)
          then PyBool false
          else py_and (negb (truthy (login_val self_login_id)))
                      (login_val other_login_id)
      | Some _ => PyBool false
      end
  | Base _ _ | Mrp _ _ | AirPlay _ _ => PyBool false
  end.

(** ** Protocol identifiers *)

(** The constants of [pyatv.const] that [conf.py] imports. The module is
    not part of this development, so the three identifiers are taken as
    parameters: nothing below depends on their values. *)
Class Const : Type := {
  PROTOCOL_MRP : Z;
  PROTOCOL_DMAP : Z;
  PROTOCOL_AIRPLAY : Z
}.

(** ** The device *)

Record AppleTV : Type := mkAppleTV {
  address : string;
  name : string;
  _services : gmap Z Service;
  _supported_protocols : list Z
}.

(** The device with [services] as its registry. *)
Definition with_services (self : AppleTV) (services : gmap Z Service)
  : AppleTV :=
  mkAppleTV (address self) (name self) services (_supported_protocols self).

Definition set_services (services : gmap Z Service) : Py AppleTV unit :=
  let! self := get in
  put (with_services self services).

(** [key in d] and [d[key]] on a dictionary. *)
Definition contains (d : gmap Z Service) (key : Z) : bool :=
  match d !! key with
  | Some _ => true
  | None => false
  end.

Definition getitem {S} (d : gmap Z Service) (key : Z) : Py S Service :=
  match d !! key with
  | Some v => ret v
  | None => raise (KeyError key)
  end.

(** [add_service]: the early [return] leaves the registry as it is. *)
Definition add_service (service : Service) : Py AppleTV unit :=
  let! self := get in
  if contains (_services self) (protocol service) then
    let! existing := getitem (_services self) (protocol service) in
    if negb (truthy (superseeded_by existing (Some service))) then
      ret tt
    else
      set_services (<[protocol service := service]> (_services self))
  else
    set_services (<[protocol service := service]> (_services self)).

(** [get_service]: [self._services.get(protocol, None)]. *)
Definition get_service (protocol : Z) : Py AppleTV (option Service) :=
  let! self := get in
  ret (_services self !! protocol).

(** [services]: the values of the registry. The order of the list is the
    map's, not the insertion order of a Python dictionary. *)
Definition services : Py AppleTV (list Service) :=
  let! self := get in
  ret ((map_to_list (_services self)).*2).

Fixpoint usable_service_loop (services : gmap Z Service)
    (protocols : list Z) : Py AppleTV (option Service) :=
  match protocols with
  | [] => ret None
  | protocol :: rest =>
      if contains services protocol then
        let! s := getitem services protocol in
        if is_usable s then
          let! r := getitem services protocol in
          ret (Some r)
        else usable_service_loop services rest
      else usable_service_loop services rest
  end.

Definition usable_service : Py AppleTV (option Service) :=
  let! self := get in
  let services := _services self in
  usable_service_loop services (_supported_protocols self).

Fixpoint preferred_service_loop (protocols : list Z)
  : Py AppleTV (option Service) :=
  match protocols with
  | [] => ret None
  | protocol :: rest =>
      let! self := get in
      if contains (_services self) protocol then
        let! r := getitem (_services self) protocol in
        ret (Some r)
      else preferred_service_loop rest
  end.

Definition preferred_service : Py AppleTV (option Service) :=
  let! self := get in
  preferred_service_loop (_supported_protocols self).

(** [any(...)] over a list of booleans. *)
Definition any (l : list bool) : bool := existsb id l.

Definition AppleTV_is_usable : Py AppleTV bool :=
  let! self := get in
  ret (any (is_usable <$> (map_to_list (_services self)).*2)).

(** What [__eq__] may be compared with. *)
Inductive PyObject : Type :=
  | ObjAppleTV (d : AppleTV)
  | ObjService (s : Service)
  | ObjNone.

Definition isinstance_AppleTV (o : PyObject) : option AppleTV :=
  match o with
  | ObjAppleTV d => Some d
  | _ => None
  end.

Definition bool_str (b : bool) : string :=
  if b then "True"%string else "False"%string.

(** [print(x)] appends a line to the standard output. *)
Definition print (line : string) : Py (list string) unit :=
  let! out := get in
  put (out ++ [line]).

(** [__eq__]: the state is the standard output, which the method writes. *)
Definition AppleTV_eq (self : AppleTV) (other : PyObject)
  : Py (list string) bool :=
  match isinstance_AppleTV other with
  | Some other =>
      print (bool_str (String.eqb (address self) (address other)));;
      ret (String.eqb (address self) (address other))
  | None => ret false
  end.

Section Conf.
Context `{Const}.

Definition _SUPPORTED_PROTOCOLS : list Z := [PROTOCOL_MRP; PROTOCOL_DMAP].

(** The constructors of the service classes. *)
Definition BaseService (protocol port : Z) : Service := Base protocol port.

Definition DmapService (login_id : option string) (port : option Z)
  : Service :=
  Dmap PROTOCOL_DMAP (py_or port 3689) login_id.

Definition MrpService (port : Z) : Service := Mrp PROTOCOL_MRP port.

Definition AirPlayService (port : Z) : Service := AirPlay PROTOCOL_AIRPLAY port.

(** [AppleTV(address, name, **kwargs)]: the keyword [supported_services]
    replaces the default preference order when it is given. *)
Definition AppleTV_init (address name : string)
    (supported_services : option (list Z)) : AppleTV :=
  mkAppleTV address name ∅
            (default _SUPPORTED_PROTOCOLS supported_services).

Definition airplay_service : Py AppleTV Service :=
  let! self := get in
  if contains (_services self) PROTOCOL_AIRPLAY then
    getitem (_services self) PROTOCOL_AIRPLAY
  else ret (AirPlayService 7000).

(** The public methods of a device, as calls. *)
Inductive Op : Type :=
  | Op_add_service (service : Service)
  | Op_get_service (protocol : Z)
  | Op_services
  | Op_usable_service
  | Op_preferred_service
  | Op_is_usable
  | Op_airplay_service
  | Op_eq (other : PyObject).

(** One call on the device, its result dropped. What [__eq__] prints goes to
    the standard output, which is no part of the device. *)
Definition call (op : Op) : Py AppleTV unit :=
  match op with
  | Op_add_service service => add_service service
  | Op_get_service protocol => get_service protocol;; ret tt
  | Op_services => services;; ret tt
  | Op_usable_service => usable_service;; ret tt
  | Op_preferred_service => preferred_service;; ret tt
  | Op_is_usable => AppleTV_is_usable;; ret tt
  | Op_airplay_service => airplay_service;; ret tt
  | Op_eq other =>
      let! self := get in
      match eval (AppleTV_eq self other) [] with
      | Return _ => ret tt
      | Raise e => raise e
      end
  end.

(** A sequence of calls; a call that raises ends it. *)
Fixpoint calls (ops : list Op) : Py AppleTV unit :=
  match ops with
  | [] => ret tt
  | op :: rest => call op;; calls rest
  end.

End Conf.

(** Modelled from the spec: the fixed enumeration of supported protocol
    identifiers ([pyatv.const] is not among the sources). Three distinct
    values, used only to run the model on concrete inputs. *)
Definition pyatv_const : Const := {|
  PROTOCOL_MRP := 2;
  PROTOCOL_DMAP := 1;
  PROTOCOL_AIRPLAY := 3
|}.

(** ** Example devices *)

Section Examples.
#[local] Existing Instance pyatv_const.

(** [AppleTV("10.0.0.1", "Apple TV")], with no service yet. *)
Definition fresh_device : AppleTV := AppleTV_init "10.0.0.1" "Apple TV" None.

(** The same device after [add_service(DmapService(None))]. *)
Definition unpaired_device : AppleTV :=
  exec (add_service (DmapService None None)) fresh_device.

(** The same device after [add_service(DmapService("x"))]. *)
Definition paired_device : AppleTV :=
  exec (add_service (DmapService (Some "x"%string) None)) fresh_device.

(** A device with an MRP service and a paired DMAP service. *)
Definition gen4_device : AppleTV :=
  exec (add_service (DmapService (Some "x"%string) None);;
        add_service (MrpService 49152)) fresh_device.

(** A device that prefers DMAP to MRP, with an unpaired DMAP service and an
    MRP service. *)
Definition dmap_first_device : AppleTV :=
  exec (add_service (DmapService None None);;
        add_service (MrpService 49152))
       (AppleTV_init "10.0.0.1" "Apple TV"
                     (Some [PROTOCOL_DMAP; PROTOCOL_MRP])).

(** A device whose AirPlay service was found at port 7001. *)
Definition airplay_device : AppleTV :=
  exec (add_service (AirPlayService 7001)) fresh_device.

(** A device whose DMAP service has the empty string as login id. *)
Definition empty_login_device : AppleTV :=
  exec (add_service (DmapService (Some ""%string) None)) fresh_device.

End Examples.

(** ** Vocabulary of the properties *)

(** [s] has a login id in the sense of [superseeded_by]: its [login_id] is
    truthy, so neither [None] nor the empty string. *)
Definition has_login_id (s : Service) : bool :=
  match s with
  | Dmap _ _ login_id => truthy (login_val login_id)
  | _ => false
  end.

(** The credential a service carries: the [login_id] of a [DmapService],
    which is absent when it is [None]; the other classes have none. *)
Definition credential (s : Service) : option string :=
  match s with
  | Dmap _ _ login_id => login_id
  | _ => None
  end.

(** Every service of the registry is stored under its own protocol. *)
Definition keyed_by_protocol (d : AppleTV) : Prop :=
  ∀ (P : Z) (s : Service), _services d !! P = Some s → protocol s = P.

(** How many of the services in [l] are for protocol [P]. *)
Definition count_protocol (P : Z) (l : list Service) : nat :=
  length (filter (λ s, protocol s = P) l).

(** No service registered under one of [protocols] is usable. *)
Definition none_usable (m : gmap Z Service) (protocols : list Z) : Prop :=
  ∀ (q : Z) (s : Service), q ∈ protocols → m !! q = Some s → is_usable s = false.

(** None of [protocols] has a service registered. *)
Definition none_registered (m : gmap Z Service) (protocols : list Z) : Prop :=
  ∀ q : Z, q ∈ protocols → m !! q = None.

(** [e'] is [e] itself or a service that supersedes [e]. *)
Definition upgrade_of (e e' : Service) : Prop :=
  e' = e ∨ truthy (superseeded_by e (Some e')) = true.

(** The protocols that have a service registered. *)
Definition registered_protocols (d : AppleTV) : gset Z := dom (_services d).

(** Some registered service is usable. *)
Definition some_usable (d : AppleTV) : Prop :=
  ∃ (P : Z) (s : Service), _services d !! P = Some s ∧ is_usable s = true.

(** [s] is an object as one of the four constructors builds it. *)
Definition from_constructor `{Const} (s : Service) : Prop :=
  (∃ P p, s = BaseService P p)
  ∨ (∃ l p, s = DmapService l p)
  ∨ (∃ p, s = MrpService p)
  ∨ (∃ p, s = AirPlayService p).

(** [add_service] called on each service of [l] in turn. *)
Definition add_services `{Const} (l : list Service) : Py AppleTV unit :=
  calls (Op_add_service <$> l).

(** * Properties *)

(** ** Running the methods *)

Section Run.

Lemma getitem_Some {S} (m : gmap Z Service) (k : Z) (v : Service) (s : S) :
  m !! k = Some v → getitem m k s = (Return v, s).
Proof. intros Hk. unfold getitem. by rewrite Hk. Qed.

Lemma contains_true (m : gmap Z Service) (k : Z) :
  contains m k = true ↔ is_Some (m !! k).
Proof.
  unfold contains. destruct (m !! k) as [v|]; split; intros Hc.
  - by exists v.
  - done.
  - discriminate.
  - by destruct Hc.
Qed.

(** What one [add_service] does: it never raises, and the registry either
    takes the service under its protocol or stays as it is. *)
Lemma add_service_run (d : AppleTV) (s : Service) :
  add_service s d =
    (Return tt,
     match _services d !! protocol s with
     | Some existing =>
         if truthy (superseeded_by existing (Some s))
         then with_services d (<[protocol s := s]> (_services d))
         else d
     | None => with_services d (<[protocol s := s]> (_services d))
     end).
Proof.
  unfold add_service, bind, get, contains, getitem, set_services, put, ret.
  destruct (_services d !! protocol s) as [existing|]; simpl; [|done].
  by destruct (truthy (superseeded_by existing (Some s))).
Qed.

Lemma get_service_run (d : AppleTV) (P : Z) :
  get_service P d = (Return (_services d !! P), d).
Proof. reflexivity. Qed.

Lemma with_services_id (d : AppleTV) : with_services d (_services d) = d.
Proof. by destruct d. Qed.

Lemma exec_bind {S A B} (m : Py S A) (k : A → Py S B) (s : S) (a : A) (s' : S) :
  m s = (Return a, s') → bind m k s = k a s'.
Proof. intros Hm. unfold bind. by rewrite Hm. Qed.

End Run.

(** ** Supersession of DMAP services *)

Section Supersession.

Lemma truthy_login_val (l : option string) :
  truthy (login_val l) = true ↔ ∃ x, l = Some x ∧ x ≠ EmptyString.
Proof.
  destruct l as [[|c x]|]; simpl; split.
  - discriminate.
  - intros (? & [= <-] & Hx). by destruct Hx.
  - intros _. by eexists.
  - done.
  - discriminate.
  - by intros (? & [=] & _).
Qed.

Lemma falsy_login_val (l : option string) :
  truthy (login_val l) = false ↔ l = None ∨ l = Some EmptyString.
Proof.
  destruct l as [[|c x]|]; simpl; split; auto.
  - discriminate.
  - intros [|]; discriminate.
Qed.

(** The exact condition under which a DMAP service is superseded. *)
Lemma dmap_superseeded_by_iff (P p : Z) (l : option string)
    (other : option Service) :
  truthy (superseeded_by (Dmap P p l) other) = true ↔
  ∃ l', other = Some (Dmap P p l')
        ∧ truthy (login_val l') = true ∧ truthy (login_val l) = false.
Proof.
  split.
  - destruct other as [[| P' p' l' | |]|]; simpl; try discriminate.
    destruct (Z.eqb_spec P' P) as [->|]; simpl; [|discriminate].
    destruct (Z.eqb_spec p' p) as [->|]; simpl; [|discriminate].
    destruct (truthy (login_val l)); simpl; [discriminate|].
    intros Hl'. by exists l'.
  - intros (l' & -> & Hl' & Hl). simpl.
    by rewrite !Z.eqb_refl, Hl.
Qed.

(** Every class but [DmapService] answers [False]. *)
Lemma base_superseeded_by (s : Service) (other : option Service) :
  class_of s ≠ DmapService_class → superseeded_by s other = PyBool false.
Proof. by destruct s. Qed.

End Supersession.

(** ** Selection by preference order *)

Section Selection.

Lemma none_usable_nil (m : gmap Z Service) : none_usable m [].
Proof. intros q s Hq. by apply elem_of_nil in Hq. Qed.

Lemma none_usable_cons (m : gmap Z Service) (p : Z) (l : list Z) :
  (∀ s, m !! p = Some s → is_usable s = false) →
  none_usable m l → none_usable m (p :: l).
Proof.
  intros Hp Hl q s Hq Hs. apply elem_of_cons in Hq as [->|Hq]; eauto.
Qed.

Lemma none_registered_cons (m : gmap Z Service) (p : Z) (l : list Z) :
  m !! p = None → none_registered m l → none_registered m (p :: l).
Proof.
  intros Hp Hl q Hq. apply elem_of_cons in Hq as [->|Hq]; eauto.
Qed.

(** The loop of [usable_service] stops at the first protocol whose service
    is registered and usable. *)
Lemma usable_service_loop_run (m : gmap Z Service) (l : list Z) (d : AppleTV) :
  ∃ r, usable_service_loop m l d = (Return r, d)
       ∧ match r with
         | Some s => ∃ l1 p l2, l = l1 ++ p :: l2 ∧ m !! p = Some s
                                ∧ is_usable s = true ∧ none_usable m l1
         | None => none_usable m l
         end.
Proof.
  induction l as [|p l IH]; simpl.
  - exists None. split; [done|]. apply none_usable_nil.
  - unfold contains, getitem, bind.
    destruct (m !! p) as [s|] eqn:Hp; simpl.
    + destruct (is_usable s) eqn:Hs.
      * exists (Some s). split; [done|].
        exists [], p, l. repeat split; auto using none_usable_nil.
      * destruct IH as (r & Hrun & Hr). exists r. split; [done|].
        destruct r as [s'|].
        -- destruct Hr as (l1 & q & l2 & -> & Hq & Hs' & Hl1).
           exists (p :: l1), q, l2. repeat split; auto.
           apply none_usable_cons; [|done]. intros s0 Hs0. congruence.
        -- apply none_usable_cons; [|done]. intros s0 Hs0. congruence.
    + destruct IH as (r & Hrun & Hr). exists r. split; [done|].
      destruct r as [s'|].
      * destruct Hr as (l1 & q & l2 & -> & Hq & Hs' & Hl1).
        exists (p :: l1), q, l2. repeat split; auto.
        apply none_usable_cons; [|done]. intros s0 Hs0. congruence.
      * apply none_usable_cons; [|done]. intros s0 Hs0. congruence.
Qed.

(** The loop of [preferred_service] stops at the first registered protocol. *)
Lemma preferred_service_loop_run (l : list Z) (d : AppleTV) :
  ∃ r, preferred_service_loop l d = (Return r, d)
       ∧ match r with
         | Some s => ∃ l1 p l2, l = l1 ++ p :: l2 ∧ _services d !! p = Some s
                                ∧ none_registered (_services d) l1
         | None => none_registered (_services d) l
         end.
Proof.
  induction l as [|p l IH]; simpl.
  - exists None. split; [done|]. intros q Hq. by apply elem_of_nil in Hq.
  - unfold contains, getitem, bind, get.
    destruct (_services d !! p) as [s|] eqn:Hp; simpl.
    + exists (Some s). split; [done|].
      exists [], p, l. repeat split; [done|].
      intros q Hq. by apply elem_of_nil in Hq.
    + destruct IH as (r & Hrun & Hr). exists r. split; [done|].
      destruct r as [s'|].
      * destruct Hr as (l1 & q & l2 & -> & Hq & Hl1).
        exists (p :: l1), q, l2. repeat split; auto.
        by apply none_registered_cons.
      * by apply none_registered_cons.
Qed.

Lemma usable_service_run (d : AppleTV) :
  ∃ r, usable_service d = (Return r, d)
       ∧ match r with
         | Some s => ∃ l1 p l2, _supported_protocols d = l1 ++ p :: l2
                                ∧ _services d !! p = Some s
                                ∧ is_usable s = true
                                ∧ none_usable (_services d) l1
         | None => none_usable (_services d) (_supported_protocols d)
         end.
Proof.
  destruct (usable_service_loop_run (_services d) (_supported_protocols d) d)
    as (r & Hrun & Hr).
  exists r. split; [|done]. unfold usable_service, bind, get. simpl. done.
Qed.

Lemma preferred_service_run (d : AppleTV) :
  ∃ r, preferred_service d = (Return r, d)
       ∧ match r with
         | Some s => ∃ l1 p l2, _supported_protocols d = l1 ++ p :: l2
                                ∧ _services d !! p = Some s
                                ∧ none_registered (_services d) l1
         | None => none_registered (_services d) (_supported_protocols d)
         end.
Proof.
  destruct (preferred_service_loop_run (_supported_protocols d) d)
    as (r & Hrun & Hr).
  exists r. split; [|done]. unfold preferred_service, bind, get. simpl. done.
Qed.

End Selection.

(** ** Calls on a device *)

Section Calls.
Context `{Const}.

Lemma airplay_service_run (d : AppleTV) :
  airplay_service d =
    (Return (default (AirPlayService 7000) (_services d !! PROTOCOL_AIRPLAY)),
     d).
Proof.
  unfold airplay_service, bind, get, contains, getitem.
  by destruct (_services d !! PROTOCOL_AIRPLAY).
Qed.

Lemma AppleTV_eq_run (self other : AppleTV) (out : list string) :
  AppleTV_eq self (ObjAppleTV other) out =
    (Return (String.eqb (address self) (address other)),
     out ++ [bool_str (String.eqb (address self) (address other))]).
Proof. reflexivity. Qed.

Lemma AppleTV_eq_returns (self : AppleTV) (other : PyObject)
    (out : list string) :
  ∃ b, eval (AppleTV_eq self other) out = Return b.
Proof. destruct other; by eexists. Qed.

(** No call raises, and only [add_service] changes the device. *)
Lemma call_run (op : Op) (d : AppleTV) :
  call op d =
    (Return tt,
     match op with
     | Op_add_service s => exec (add_service s) d
     | _ => d
     end).
Proof.
  destruct op as [s|P| | | | | |other]; simpl.
  - unfold exec. by rewrite add_service_run.
  - done.
  - done.
  - destruct (usable_service_run d) as (r & Hrun & _).
    by rewrite (exec_bind _ _ _ _ _ Hrun).
  - destruct (preferred_service_run d) as (r & Hrun & _).
    by rewrite (exec_bind _ _ _ _ _ Hrun).
  - done.
  - by rewrite (exec_bind _ _ _ _ _ (airplay_service_run d)).
  - destruct (AppleTV_eq_returns d other []) as (b & Hb).
    unfold bind, get. by rewrite Hb.
Qed.

(** A property of the device that [add_service] preserves holds after any
    sequence of calls, none of which raises. *)
Lemma calls_preserve (I : AppleTV → Prop) :
  (∀ d s, I d → I (exec (add_service s) d)) →
  ∀ ops d, I d → eval (calls ops) d = Return tt ∧ I (exec (calls ops) d).
Proof.
  intros Hadd ops. induction ops as [|op ops IH]; intros d Hd; [done|].
  unfold eval, exec. simpl.
  rewrite (exec_bind _ _ _ _ _ (call_run op d)).
  apply IH. destruct op; auto.
Qed.

Lemma add_service_keyed (d : AppleTV) (s : Service) :
  keyed_by_protocol d → keyed_by_protocol (exec (add_service s) d).
Proof.
  intros Hd. unfold exec. rewrite add_service_run. simpl.
  assert (keyed_by_protocol
            (with_services d (<[protocol s := s]> (_services d)))) as Hins.
  { intros P s'. simpl. rewrite lookup_insert.
    case_decide as HP; [|apply Hd]. by intros [= <-]. }
  destruct (_services d !! protocol s) as [existing|]; [|done].
  by destruct (truthy (superseeded_by existing (Some s))).
Qed.

(** A registry keyed by protocol lists each protocol at most once. *)
Lemma keyed_NoDup_protocols (d : AppleTV) :
  keyed_by_protocol d →
  NoDup (protocol <$> (map_to_list (_services d)).*2).
Proof.
  intros Hd.
  assert (protocol <$> (map_to_list (_services d)).*2
          = (map_to_list (_services d)).*1) as ->.
  { rewrite <- list_fmap_compose. apply Forall_fmap_ext, Forall_forall.
    intros [P s] HPs. simpl. by apply Hd, elem_of_map_to_list. }
  apply NoDup_fst_map_to_list.
Qed.

Lemma NoDup_count_protocol (l : list Service) (P : Z) :
  NoDup (protocol <$> l) → (count_protocol P l ≤ 1)%nat.
Proof.
  unfold count_protocol. induction l as [|s l IH]; simpl; [lia|].
  rewrite NoDup_cons. intros [Hs Hl]. rewrite filter_cons.
  case_decide as HP; [|auto]. simpl.
  assert (filter (λ s0, protocol s0 = P) l = []) as ->; [|simpl; lia].
  apply elem_of_nil_inv. intros s' [HP' Hs']%list_elem_of_filter.
  apply Hs, list_elem_of_fmap. exists s'. split; [congruence|done].
Qed.

End Calls.

(** ** The registry and the supersession rule *)

Section Registry.
Context `{Const}.

(** C1 (amended): [superseeded_by] answers a true value only for (and for
    every) service of the same class, the same protocol and the same port
    that carries a non-empty credential while the credential of the receiver
    is absent or the empty string: the test is [not self.login_id], the
    truth value of the login id, not [login_id is None]. So, for every port
    and protocol identifier, on a device with no DMAP service yet, adding
    [DmapService(None, p)] and then [DmapService(x, p)] leaves the one with
    login id [x] registered, and so does adding them in the other order:
    there is no downgrade. *)
Theorem dmap_superseeded_by_upgrade_only :
  (∀ (self : Service) (other : option Service),
     truthy (superseeded_by self other) = true ↔
     class_of self = DmapService_class
     ∧ ∃ o, other = Some o
            ∧ class_of o = class_of self
            ∧ protocol o = protocol self
            ∧ port o = port self
            ∧ (∃ x, credential o = Some x ∧ x ≠ EmptyString)
            ∧ (credential self = None ∨ credential self = Some EmptyString))
  ∧ (∀ (d : AppleTV) (p : option Z) (x : string),
       x ≠ EmptyString →
       eval (get_service PROTOCOL_DMAP) d = Return None →
       eval (get_service PROTOCOL_DMAP)
            (exec (add_service (DmapService None p);;
                   add_service (DmapService (Some x) p)) d)
       = Return (Some (DmapService (Some x) p)))
  ∧ (∀ (d : AppleTV) (p : option Z) (x : string),
       eval (get_service PROTOCOL_DMAP) d = Return None →
       eval (get_service PROTOCOL_DMAP)
            (exec (add_service (DmapService (Some x) p);;
                   add_service (DmapService None p)) d)
       = Return (Some (DmapService (Some x) p))).
Proof.
  split; [|split].
  - intros self other. split.
    + destruct self as [| P p l | |]; intros Hsup; try discriminate.
      apply dmap_superseeded_by_iff in Hsup as (l' & -> & Hl' & Hl).
      split; [done|]. exists (Dmap P p l'). simpl.
      apply truthy_login_val in Hl'. apply falsy_login_val in Hl. done.
    + intros (Hself & o & -> & Hclass & Hprotocol & Hport & Ho & Hl).
      destruct self as [| P p l | |]; try discriminate.
      destruct o as [| P' p' l' | |]; try discriminate.
      simpl in Hprotocol, Hport, Ho, Hl. subst P' p'.
      apply dmap_superseeded_by_iff. exists l'. split; [done|].
      split; [by apply truthy_login_val | by apply falsy_login_val].
  - intros d p x Hx Hnone. unfold eval in Hnone.
    rewrite get_service_run in Hnone. injection Hnone as Hnone.
    unfold exec, eval.
    rewrite (exec_bind _ _ _ _ _ (add_service_run d _)). simpl.
    rewrite Hnone, add_service_run. simpl.
    rewrite lookup_insert_eq. simpl.
    rewrite !Z.eqb_refl. simpl.
    destruct x as [|c x]; [done|]. simpl.
    by rewrite lookup_insert_eq.
  - intros d p x Hnone. unfold eval in Hnone.
    rewrite get_service_run in Hnone. injection Hnone as Hnone.
    unfold exec, eval.
    rewrite (exec_bind _ _ _ _ _ (add_service_run d _)). simpl.
    rewrite Hnone, add_service_run. simpl.
    rewrite lookup_insert_eq. simpl.
    rewrite !Z.eqb_refl. simpl.
    destruct x as [|c x]; simpl; by rewrite lookup_insert_eq.
Qed.

(** C1 as first stated fails: a DMAP service whose login id is the empty
    string carries a credential (it is not [None], and the service is
    usable), yet a service of the same class, protocol and port with login
    id "x" supersedes it. So it is not true that a service is superseded
    only when it carries no credential. *)
Lemma dmap_superseeded_by_credential_counterexample :
  ¬ (∀ (self : Service) (other : option Service),
       truthy (superseeded_by self other) = true →
       ∃ o, other = Some o
            ∧ class_of o = class_of self
            ∧ protocol o = protocol self
            ∧ port o = port self
            ∧ credential o ≠ None
            ∧ credential self = None).
Proof.
  intros Hclaim.
  destruct (Hclaim (Dmap 1 3689 (Some EmptyString))
                   (Some (Dmap 1 3689 (Some "x"%string))) eq_refl)
    as (o & _ & _ & _ & _ & _ & Hnone).
  discriminate.
Qed.

(** C2: [add_service] never raises. When no service is registered for the
    protocol of [s], it registers [s], and [get_service] then returns [s].
    When [existing] is registered for that protocol, [s] takes its place if
    [existing.superseeded_by(s)] is true, and the device stays as it is if
    it is false. *)
Theorem add_service_registers_or_supersedes (d : AppleTV) (s : Service) :
  eval (add_service s) d = Return tt
  ∧ (eval (get_service (protocol s)) d = Return None →
     exec (add_service s) d
       = with_services d (<[protocol s := s]> (_services d))
     ∧ eval (get_service (protocol s)) (exec (add_service s) d)
       = Return (Some s))
  ∧ (∀ existing : Service,
       eval (get_service (protocol s)) d = Return (Some existing) →
       (truthy (superseeded_by existing (Some s)) = true →
        exec (add_service s) d
          = with_services d (<[protocol s := s]> (_services d))
        ∧ eval (get_service (protocol s)) (exec (add_service s) d)
          = Return (Some s))
       ∧ (truthy (superseeded_by existing (Some s)) = false →
          exec (add_service s) d = d
          ∧ eval (get_service (protocol s)) (exec (add_service s) d)
            = Return (Some existing))).
Proof.
  unfold eval, exec. rewrite add_service_run, !get_service_run. simpl.
  split; [done|]. split.
  - intros [= ->]. split; [done|]. simpl. by rewrite lookup_insert_eq.
  - intros existing [= Hreg]. rewrite Hreg. split; intros ->.
    + split; [done|]. simpl. by rewrite lookup_insert_eq.
    + split; [done|]. by rewrite Hreg.
Qed.

(** C3: when [existing] is registered under its protocol and is not
    superseded by [candidate], [add_service(candidate)] returns without
    raising and [get_service] still returns [existing] for its protocol;
    for a candidate of that protocol the call is a no-op: the device is
    left as it was, every entry of the registry included. *)
Theorem add_service_rejection_is_silent
    (d : AppleTV) (existing candidate : Service) :
  eval (get_service (protocol existing)) d = Return (Some existing) →
  truthy (superseeded_by existing (Some candidate)) = false →
  eval (add_service candidate) d = Return tt
  ∧ eval (get_service (protocol existing)) (exec (add_service candidate) d)
    = Return (Some existing)
  ∧ (protocol candidate = protocol existing →
     exec (add_service candidate) d = d
     ∧ ∀ P : Z, eval (get_service P) (exec (add_service candidate) d)
                = eval (get_service P) d).
Proof.
  unfold eval, exec. rewrite add_service_run, !get_service_run. simpl.
  intros [= Hreg] Hsup. split; [done|].
  destruct (decide (protocol candidate = protocol existing)) as [Heq|Hne].
  - rewrite Heq, Hreg, Hsup. by rewrite Hreg.
  - split; [|done].
    assert (∀ m : gmap Z Service,
              _services d = m ∨ m = <[protocol candidate := candidate]>
                                      (_services d) →
              m !! protocol existing = Some existing) as Hm.
    { intros m [<-| ->]; [done|]. by rewrite lookup_insert_ne. }
    destruct (_services d !! protocol candidate) as [e|];
      [destruct (truthy (superseeded_by e (Some candidate)))|];
      simpl; f_equal; apply Hm; auto.
Qed.

(** C7: an MRP service is never superseded, since [MrpService] inherits
    [superseeded_by] from [BaseService], which answers [False]. Once it is
    registered for its protocol, [get_service] returns it after every
    sequence of calls, [add_service] calls in particular, and none of the
    calls raises. *)
Theorem mrp_service_never_replaced (d : AppleTV) (p : Z) (ops : list Op) :
  eval (get_service PROTOCOL_MRP) d = Return (Some (MrpService p)) →
  (∀ other : option Service,
     superseeded_by (MrpService p) other = PyBool false)
  ∧ eval (calls ops) d = Return tt
  ∧ eval (get_service PROTOCOL_MRP) (exec (calls ops) d)
    = Return (Some (MrpService p)).
Proof.
  intros Hreg. split; [done|].
  apply (calls_preserve
           (λ d, eval (get_service PROTOCOL_MRP) d
                 = Return (Some (MrpService p)))); [|done].
  clear d Hreg. intros d s. unfold eval, exec.
  rewrite add_service_run, !get_service_run. simpl. intros [= Hreg].
  destruct (decide (protocol s = PROTOCOL_MRP)) as [Heq|Hne].
  - rewrite Heq, Hreg. simpl. by rewrite Hreg.
  - assert (∀ m : gmap Z Service,
              _services d = m ∨ m = <[protocol s := s]> (_services d) →
              m !! PROTOCOL_MRP = Some (MrpService p)) as Hm.
    { intros m [<-| ->]; [done|]. by rewrite lookup_insert_ne. }
    destruct (_services d !! protocol s) as [e|];
      [destruct (truthy (superseeded_by e (Some s)))|];
      simpl; f_equal; apply Hm; auto.
Qed.

(** C8: starting from a freshly constructed device, after any sequence of
    calls of its methods (none of which raises) every registered service is
    stored under its own protocol, and the services of the device hold at
    most one service per protocol. *)
Theorem registry_invariant (address name : string)
    (supported_services : option (list Z)) (ops : list Op) :
  let d := exec (calls ops) (AppleTV_init address name supported_services) in
  eval (calls ops) (AppleTV_init address name supported_services) = Return tt
  ∧ keyed_by_protocol d
  ∧ ∃ l : list Service,
      eval services d = Return l
      ∧ NoDup (protocol <$> l)
      ∧ ∀ P : Z, (count_protocol P l ≤ 1)%nat.
Proof.
  simpl.
  destruct (calls_preserve keyed_by_protocol add_service_keyed ops
              (AppleTV_init address name supported_services)) as [Hret Hkey].
  { intros P s. simpl. by rewrite lookup_empty. }
  split; [done|]. split; [done|].
  eexists. split; [reflexivity|].
  pose proof (keyed_NoDup_protocols _ Hkey) as Hnodup.
  split; [done|]. intros P. by apply NoDup_count_protocol.
Qed.

(** C10: a DMAP service whose login id is the empty string is usable, since
    [is_usable] tests [login_id is not None]; yet a DMAP service of the same
    port with a non-empty login id supersedes it, since [superseeded_by]
    tests the truth value of the login id, and [add_service] then replaces
    the registered entry. *)
Theorem empty_login_id_usable_yet_superseded
    (d : AppleTV) (p : option Z) (x : string) :
  is_usable (DmapService (Some EmptyString) p) = true
  ∧ has_login_id (DmapService (Some EmptyString) p) = false
  ∧ (x ≠ EmptyString →
     truthy (superseeded_by (DmapService (Some EmptyString) p)
                            (Some (DmapService (Some x) p))) = true
     ∧ (eval (get_service PROTOCOL_DMAP) d
          = Return (Some (DmapService (Some EmptyString) p)) →
        eval (get_service PROTOCOL_DMAP)
             (exec (add_service (DmapService (Some x) p)) d)
          = Return (Some (DmapService (Some x) p)))).
Proof.
  split; [done|]. split; [done|]. intros Hx.
  assert (truthy (superseeded_by (DmapService (Some EmptyString) p)
                                 (Some (DmapService (Some x) p))) = true)
    as Hsup.
  { apply dmap_superseeded_by_iff. exists (Some x). split; [done|].
    split; [|done]. apply truthy_login_val. by exists x. }
  split; [done|].
  unfold eval, exec. rewrite add_service_run, !get_service_run.
  cbn [fst snd]. intros [= Hreg].
  change (protocol (DmapService (Some x) p)) with PROTOCOL_DMAP.
  rewrite Hreg, Hsup. cbn [_services with_services].
  by rewrite lookup_insert_eq.
Qed.

End Registry.

(** ** Queries *)

Section Queries.
Context `{Const}.

(** C4: [usable_service] never raises and leaves the device as it is; it
    walks the preference order and returns the first service that is
    registered and usable, or [None] when no registered service of the
    order is usable. So when the first protocol of the order has a usable
    service, that service wins over a usable service of a later protocol. *)
Theorem usable_service_first_usable :
  (∀ d : AppleTV,
     ∃ r, usable_service d = (Return r, d)
          ∧ match r with
            | Some s =>
                ∃ l1 p l2, _supported_protocols d = l1 ++ p :: l2
                           ∧ _services d !! p = Some s
                           ∧ is_usable s = true
                           ∧ none_usable (_services d) l1
            | None => none_usable (_services d) (_supported_protocols d)
            end)
  ∧ (∀ (d : AppleTV) (X Y : Z) (rest : list Z) (sx sy : Service),
       _supported_protocols d = X :: rest → Y ∈ rest →
       eval (get_service X) d = Return (Some sx) → is_usable sx = true →
       eval (get_service Y) d = Return (Some sy) → is_usable sy = true →
       eval usable_service d = Return (Some sx)).
Proof.
  split; [apply usable_service_run|].
  intros d X Y rest sx sy Horder _ [= HX] Hsx _ _.
  unfold eval, usable_service, bind, get. simpl.
  rewrite Horder. simpl. unfold contains, getitem, bind.
  rewrite HX. simpl. by rewrite Hsx.
Qed.

(** C5: [preferred_service] never raises and leaves the device as it is; it
    walks the preference order and returns the first registered service,
    usable or not, or [None] when no protocol of the order has a service.
    With the order [X, Y], an unusable service under [X] and a usable one
    under [Y], it returns the service of [X] while [usable_service] returns
    the service of [Y]. *)
Theorem preferred_service_first_registered :
  (∀ d : AppleTV,
     ∃ r, preferred_service d = (Return r, d)
          ∧ match r with
            | Some s =>
                ∃ l1 p l2, _supported_protocols d = l1 ++ p :: l2
                           ∧ _services d !! p = Some s
                           ∧ none_registered (_services d) l1
            | None => none_registered (_services d) (_supported_protocols d)
            end)
  ∧ (∀ (d : AppleTV) (X Y : Z) (sx sy : Service),
       _supported_protocols d = [X; Y] →
       eval (get_service X) d = Return (Some sx) → is_usable sx = false →
       eval (get_service Y) d = Return (Some sy) → is_usable sy = true →
       eval preferred_service d = Return (Some sx)
       ∧ eval usable_service d = Return (Some sy)).
Proof.
  split; [apply preferred_service_run|].
  intros d X Y sx sy Horder [= HX] Hsx [= HY] Hsy. split.
  - unfold eval, preferred_service, bind, get. simpl.
    rewrite Horder. simpl. unfold contains, getitem, bind, get. simpl.
    by rewrite HX.
  - unfold eval, usable_service, bind, get. simpl.
    rewrite Horder. simpl. unfold contains, getitem, bind.
    rewrite HX. simpl. rewrite Hsx, HY. simpl. by rewrite Hsy.
Qed.

(** C6: [airplay_service] returns the registered AirPlay service when there
    is one. Otherwise it returns a new [AirPlayService] with the AirPlay
    protocol and port 7000. Either way it leaves the device as it is: when
    no AirPlay service was registered, [get_service] still finds none, and
    every other entry of the registry reads as before. *)
Theorem airplay_service_default_leaves_registry :
  (∀ (d : AppleTV) (s : Service),
     eval (get_service PROTOCOL_AIRPLAY) d = Return (Some s) →
     airplay_service d = (Return s, d))
  ∧ (∀ d : AppleTV,
       eval (get_service PROTOCOL_AIRPLAY) d = Return None →
       ∃ r, airplay_service d = (Return r, d)
            ∧ r = AirPlayService 7000
            ∧ class_of r = AirPlayService_class
            ∧ protocol r = PROTOCOL_AIRPLAY
            ∧ port r = 7000
            ∧ eval (get_service PROTOCOL_AIRPLAY) (exec airplay_service d)
              = Return None
            ∧ ∀ P : Z, eval (get_service P) (exec airplay_service d)
                       = eval (get_service P) d).
Proof.
  split.
  - intros d s [= Hreg]. by rewrite airplay_service_run, Hreg.
  - intros d [= Hreg]. exists (AirPlayService 7000).
    unfold exec, eval. rewrite airplay_service_run, Hreg. simpl.
    by rewrite Hreg.
Qed.

(** C9: comparing a device with another device returns whether their
    addresses are equal, whatever their names and services; so the devices
    at 10.0.0.1 named A and B are equal, and the devices named A at
    10.0.0.1 and at 10.0.0.2 are not. *)
Theorem AppleTV_eq_by_address :
  (∀ (self other : AppleTV) (out : list string),
     ∃ b : bool,
       eval (AppleTV_eq self (ObjAppleTV other)) out = Return b
       ∧ (b = true ↔ address self = address other))
  ∧ eval (AppleTV_eq (AppleTV_init "10.0.0.1" "A" None)
                     (ObjAppleTV (AppleTV_init "10.0.0.1" "B" None))) []
    = Return true
  ∧ eval (AppleTV_eq (AppleTV_init "10.0.0.1" "A" None)
                     (ObjAppleTV (AppleTV_init "10.0.0.2" "A" None))) []
    = Return false.
Proof.
  split; [|split; reflexivity].
  intros self other out.
  exists (String.eqb (address self) (address other)).
  unfold eval. rewrite AppleTV_eq_run. split; [done|].
  apply String.eqb_eq.
Qed.

End Queries.

(** ** The properties on the example devices *)

Section Witnesses.
#[local] Existing Instance pyatv_const.

Lemma dmap_superseeded_by_upgrade_only_witness :
  eval (get_service PROTOCOL_DMAP)
       (exec (add_service (DmapService None (Some 3689));;
              add_service (DmapService (Some "x"%string) (Some 3689)))
             fresh_device)
  = Return (Some (DmapService (Some "x"%string) (Some 3689)))
  ∧ eval (get_service PROTOCOL_DMAP)
         (exec (add_service (DmapService (Some "x"%string) (Some 3689));;
                add_service (DmapService None (Some 3689)))
               fresh_device)
    = Return (Some (DmapService (Some "x"%string) (Some 3689))).
Proof.
  split.
  - apply (proj1 (proj2 dmap_superseeded_by_upgrade_only));
      [discriminate | reflexivity].
  - apply (proj2 (proj2 dmap_superseeded_by_upgrade_only)). reflexivity.
Defined.

Lemma add_service_registers_or_supersedes_witness :
  eval (get_service PROTOCOL_DMAP)
       (exec (add_service (DmapService None None)) fresh_device)
  = Return (Some (DmapService None None))
  ∧ eval (get_service PROTOCOL_DMAP)
         (exec (add_service (DmapService (Some "x"%string) None))
               unpaired_device)
    = Return (Some (DmapService (Some "x"%string) None))
  ∧ exec (add_service (DmapService None None)) paired_device = paired_device.
Proof.
  split; [|split].
  - apply (proj1 (proj2 (add_service_registers_or_supersedes
                           fresh_device (DmapService None None)))).
    reflexivity.
  - destruct (add_service_registers_or_supersedes
                unpaired_device (DmapService (Some "x"%string) None))
      as (_ & _ & Hreg).
    apply (Hreg (DmapService None None)); reflexivity.
  - destruct (add_service_registers_or_supersedes
                paired_device (DmapService None None))
      as (_ & _ & Hreg).
    apply (Hreg (DmapService (Some "x"%string) None)); reflexivity.
Defined.

Lemma add_service_rejection_is_silent_witness :
  eval (add_service (DmapService None None)) paired_device = Return tt
  ∧ eval (get_service PROTOCOL_DMAP)
         (exec (add_service (DmapService None None)) paired_device)
    = Return (Some (DmapService (Some "x"%string) None))
  ∧ exec (add_service (DmapService None None)) paired_device = paired_device.
Proof.
  destruct (add_service_rejection_is_silent
              paired_device (DmapService (Some "x"%string) None)
              (DmapService None None))
    as (Hret & Hget & Hsame); [reflexivity | reflexivity |].
  split; [exact Hret|]. split; [exact Hget|].
  apply Hsame. reflexivity.
Defined.

Lemma mrp_service_never_replaced_witness :
  eval (get_service PROTOCOL_MRP)
       (exec (calls [Op_add_service (MrpService 5000);
                     Op_add_service (Mrp PROTOCOL_MRP 49152);
                     Op_add_service (DmapService None None);
                     Op_add_service (Base PROTOCOL_MRP 1)])
             gen4_device)
  = Return (Some (MrpService 49152)).
Proof.
  apply (mrp_service_never_replaced gen4_device 49152). reflexivity.
Defined.

Lemma usable_service_first_usable_witness :
  eval usable_service gen4_device = Return (Some (MrpService 49152)).
Proof.
  apply (proj2 usable_service_first_usable gen4_device
               PROTOCOL_MRP PROTOCOL_DMAP [PROTOCOL_DMAP]
               (MrpService 49152) (DmapService (Some "x"%string) None));
    first [reflexivity | apply list_elem_of_here].
Defined.

Lemma preferred_service_first_registered_witness :
  eval preferred_service dmap_first_device
  = Return (Some (DmapService None None))
  ∧ eval usable_service dmap_first_device
    = Return (Some (MrpService 49152)).
Proof.
  apply (proj2 preferred_service_first_registered dmap_first_device
               PROTOCOL_DMAP PROTOCOL_MRP); reflexivity.
Defined.

Lemma airplay_service_default_leaves_registry_witness :
  airplay_service airplay_device = (Return (AirPlayService 7001), airplay_device)
  ∧ ∃ r, airplay_service fresh_device = (Return r, fresh_device)
         ∧ port r = 7000.
Proof.
  split.
  - apply (proj1 airplay_service_default_leaves_registry). reflexivity.
  - destruct (proj2 airplay_service_default_leaves_registry fresh_device)
      as (r & Hrun & _ & _ & _ & Hport & _); [reflexivity|].
    exists r. split; [exact Hrun | exact Hport].
Defined.

Lemma empty_login_id_usable_yet_superseded_witness :
  is_usable (DmapService (Some ""%string) None) = true
  ∧ eval (get_service PROTOCOL_DMAP)
         (exec (add_service (DmapService (Some "x"%string) None))
               empty_login_device)
    = Return (Some (DmapService (Some "x"%string) None)).
Proof.
  destruct (empty_login_id_usable_yet_superseded
              empty_login_device None "x"%string) as (Huse & _ & Hsup).
  split; [exact Huse|].
  apply (proj2 (Hsup ltac:(discriminate))). reflexivity.
Defined.

End Witnesses.

(** * Further properties of the device *)

(** ** Methods that only read the device *)

Section Readers.
Context `{Const}.

Lemma any_true (l : list bool) : any l = true ↔ true ∈ l.
Proof.
  unfold any. induction l as [|b l IH]; simpl.
  - split; [discriminate|]. by intros ?%elem_of_nil.
  - rewrite elem_of_cons, orb_true_iff, IH. unfold id. split.
    + intros [->|Hl]; [by left | by right].
    + intros [<-|Hl]; [by left | by right].
Qed.

Lemma is_usable_values (m : gmap Z Service) :
  true ∈ is_usable <$> (map_to_list m).*2 ↔
  ∃ (P : Z) (s : Service), m !! P = Some s ∧ is_usable s = true.
Proof.
  rewrite list_elem_of_fmap. split.
  - intros (s & Hs & Hin). apply list_elem_of_fmap in Hin as ([P s'] & -> & Hin).
    apply elem_of_map_to_list in Hin. by exists P, s'.
  - intros (P & s & HP & Hs). exists s. split; [done|].
    apply list_elem_of_fmap. exists (P, s). split; [done|].
    by apply elem_of_map_to_list.
Qed.

(** X1: no method raises on any device: the subscripts [d[key]] are all guarded
    by [key in d]. Apart from [add_service], every method leaves the device
    as it is. *)
Theorem methods_never_raise (d : AppleTV) :
  (∀ s : Service, eval (add_service s) d = Return tt)
  ∧ (∀ P : Z, ∃ r, get_service P d = (Return r, d))
  ∧ (∃ l, services d = (Return l, d))
  ∧ (∃ r, usable_service d = (Return r, d))
  ∧ (∃ r, preferred_service d = (Return r, d))
  ∧ (∃ b, AppleTV_is_usable d = (Return b, d))
  ∧ (∃ s, airplay_service d = (Return s, d))
  ∧ (∀ (other : PyObject) (out : list string),
       ∃ b, eval (AppleTV_eq d other) out = Return b).
Proof.
  split; [|split; [|split; [|split; [|split; [|split; [|split]]]]]].
  - intros s. unfold eval. by rewrite add_service_run.
  - intros P. by eexists.
  - by eexists.
  - destruct (usable_service_run d) as (r & Hrun & _). by exists r.
  - destruct (preferred_service_run d) as (r & Hrun & _). by exists r.
  - by eexists.
  - eexists. apply airplay_service_run.
  - apply AppleTV_eq_returns.
Qed.

(** X2: the device is usable exactly when one of its registered services is. *)
Theorem AppleTV_is_usable_iff (d : AppleTV) :
  ∃ b : bool,
    AppleTV_is_usable d = (Return b, d)
    ∧ (b = true ↔
       ∃ (P : Z) (s : Service),
         eval (get_service P) d = Return (Some s) ∧ is_usable s = true).
Proof.
  eexists. split; [reflexivity|].
  rewrite any_true, is_usable_values. unfold eval.
  split; intros (P & s & HP & Hs); exists P, s.
  - by rewrite get_service_run, HP.
  - rewrite get_service_run in HP. by injection HP as HP.
Qed.

(** X3: [services] returns the registered services and nothing else: as many
    as there are registered protocols, each one found by [get_service]. *)
Theorem services_lists_registry (d : AppleTV) :
  ∃ l : list Service,
    services d = (Return l, d)
    ∧ length l = size (registered_protocols d)
    ∧ ∀ s : Service,
        s ∈ l ↔ ∃ P : Z, eval (get_service P) d = Return (Some s).
Proof.
  eexists. split; [reflexivity|]. split.
  - unfold registered_protocols.
    by rewrite length_fmap, length_map_to_list, size_dom.
  - intros s. rewrite list_elem_of_fmap. unfold eval. split.
    + intros ([P s'] & -> & Hin). exists P.
      apply elem_of_map_to_list in Hin. by rewrite get_service_run, Hin.
    + intros (P & HP). rewrite get_service_run in HP. injection HP as HP.
      exists (P, s). split; [done|]. by apply elem_of_map_to_list.
Qed.

(** X4: a new device has no service: every lookup answers [None], the list of
    services is empty, the device is not usable, no service is selected,
    and the AirPlay service is the default one at port 7000. *)
Theorem new_device_has_no_service (address name : string)
    (supported_services : option (list Z)) :
  let d := AppleTV_init address name supported_services in
  (∀ P : Z, eval (get_service P) d = Return None)
  ∧ eval services d = Return []
  ∧ eval AppleTV_is_usable d = Return false
  ∧ eval usable_service d = Return None
  ∧ eval preferred_service d = Return None
  ∧ eval airplay_service d = Return (AirPlayService 7000).
Proof.
  simpl. split; [|split; [|split; [|split; [|split]]]].
  - intros P. unfold eval. rewrite get_service_run. simpl.
    by rewrite lookup_empty.
  - unfold eval, services, bind, get, ret. simpl.
    by rewrite map_to_list_empty.
  - unfold eval, AppleTV_is_usable, bind, get, ret. simpl.
    by rewrite map_to_list_empty.
  - destruct (usable_service_run
                (AppleTV_init address name supported_services))
      as ([s|] & Hrun & Hr); unfold eval; rewrite Hrun; [|done].
    destruct Hr as (l1 & p & l2 & _ & Hp & _). simpl in Hp.
    by rewrite lookup_empty in Hp.
  - destruct (preferred_service_run
                (AppleTV_init address name supported_services))
      as ([s|] & Hrun & Hr); unfold eval; rewrite Hrun; [|done].
    destruct Hr as (l1 & p & l2 & _ & Hp & _). simpl in Hp.
    by rewrite lookup_empty in Hp.
  - unfold eval. rewrite airplay_service_run. simpl.
    by rewrite lookup_empty.
Qed.

(** X5: no sequence of calls changes the address, the name or the preference
    order of a device. *)
Theorem calls_keep_identity (d : AppleTV) (ops : list Op) :
  address (exec (calls ops) d) = address d
  ∧ name (exec (calls ops) d) = name d
  ∧ _supported_protocols (exec (calls ops) d) = _supported_protocols d.
Proof.
  apply (calls_preserve
           (λ d', address d' = address d ∧ name d' = name d
                  ∧ _supported_protocols d' = _supported_protocols d));
    [|done].
  intros d' s Hd'. unfold exec. rewrite add_service_run. simpl.
  destruct (_services d' !! protocol s) as [e|];
    [destruct (truthy (superseeded_by e (Some s)))|]; done.
Qed.

End Readers.

(** ** How the registry evolves *)

Section Evolution.
Context `{Const}.

(** The entry of protocol [P] after one [add_service]. *)
Lemma add_service_lookup (d : AppleTV) (s : Service) (P : Z) :
  _services (exec (add_service s) d) !! P =
    if decide (P = protocol s) then
      match _services d !! P with
      | Some e => if truthy (superseeded_by e (Some s)) then Some s else Some e
      | None => Some s
      end
    else _services d !! P.
Proof.
  unfold exec. rewrite add_service_run. cbn [snd].
  case_decide as HP.
  - subst P. destruct (_services d !! protocol s) as [e|] eqn:He.
    + destruct (truthy (superseeded_by e (Some s))); [|done].
      simpl. by rewrite lookup_insert_eq.
    + simpl. by rewrite lookup_insert_eq.
  - destruct (_services d !! protocol s) as [e|].
    + destruct (truthy (superseeded_by e (Some s))); [|done].
      simpl. by rewrite lookup_insert_ne.
    + simpl. by rewrite lookup_insert_ne.
Qed.

Lemma superseeding_has_login_id (a b : Service) :
  truthy (superseeded_by a (Some b)) = true →
  has_login_id b = true ∧ is_usable b = true
  ∧ class_of b = class_of a ∧ protocol b = protocol a ∧ port b = port a.
Proof.
  destruct a as [| P p l | |]; try discriminate.
  intros (l' & [= ->] & Hl' & _)%dmap_superseeded_by_iff.
  split; [done|]. split; [|done].
  apply truthy_login_val in Hl' as (x & -> & _). done.
Qed.

Lemma has_login_id_not_superseeded (a : Service) (other : option Service) :
  class_of a ≠ DmapService_class ∨ has_login_id a = true →
  truthy (superseeded_by a other) = false.
Proof.
  intros Ha. destruct (truthy (superseeded_by a other)) eqn:Hsup; [|done].
  destruct a as [| P p l | |]; try discriminate.
  apply dmap_superseeded_by_iff in Hsup as (l' & _ & _ & Hl).
  destruct Ha as [Ha|Ha]; [done|]. simpl in Ha. congruence.
Qed.

Lemma upgrade_of_trans (e e' e'' : Service) :
  upgrade_of e e' → upgrade_of e' e'' → upgrade_of e e''.
Proof.
  intros [->|Hsup] He''; [done|].
  destruct He'' as [->|Hsup']; [by right|].
  apply superseeding_has_login_id in Hsup as (Hlogin & _).
  rewrite has_login_id_not_superseeded in Hsup'; [done|by right].
Qed.

(** A registered entry is only ever replaced by a service that supersedes
    the one first registered. *)
Lemma calls_entry (d : AppleTV) (P : Z) (e : Service) (ops : list Op) :
  _services d !! P = Some e →
  ∃ e', _services (exec (calls ops) d) !! P = Some e' ∧ upgrade_of e e'.
Proof.
  intros He.
  apply (calls_preserve
           (λ d', ∃ e', _services d' !! P = Some e' ∧ upgrade_of e e'));
    [|exists e; split; [done|by left]].
  intros d' s (e' & He' & Hup). rewrite add_service_lookup, He'.
  case_decide as HP; [|by exists e'].
  destruct (truthy (superseeded_by e' (Some s))) eqn:Hsup; [|by exists e'].
  exists s. split; [done|].
  apply (upgrade_of_trans _ e'); [done|by right].
Qed.

(** X6: supersession is a one-step upgrade: no service supersedes itself, [None]
    supersedes nothing, and a service that supersedes another is usable and
    is itself superseded by nothing. *)
Theorem superseeded_by_one_step :
  (∀ s : Service, truthy (superseeded_by s (Some s)) = false)
  ∧ (∀ s : Service, truthy (superseeded_by s None) = false)
  ∧ (∀ a b : Service,
       truthy (superseeded_by a (Some b)) = true →
       is_usable b = true
       ∧ ∀ other : option Service, truthy (superseeded_by b other) = false).
Proof.
  split; [|split].
  - intros s. destruct (truthy (superseeded_by s (Some s))) eqn:Hsup; [|done].
    destruct s as [| P p l | |]; try discriminate.
    apply dmap_superseeded_by_iff in Hsup as (l' & [= <-] & Hl' & Hl).
    congruence.
  - intros s. by destruct s.
  - intros a b Hsup.
    apply superseeding_has_login_id in Hsup as (Hlogin & Huse & _).
    split; [done|]. intros other.
    apply has_login_id_not_superseeded. by right.
Qed.

(** X7: adding the same service twice is the same as adding it once. *)
Theorem add_service_idempotent (d : AppleTV) (s : Service) :
  exec (add_service s;; add_service s) d = exec (add_service s) d.
Proof.
  unfold exec at 1.
  rewrite (exec_bind _ _ _ _ _ (add_service_run d s)).
  pose proof (add_service_lookup d s (protocol s)) as Hnew.
  unfold exec in Hnew. rewrite add_service_run in Hnew. cbn [snd] in Hnew.
  unfold exec. rewrite !add_service_run. cbn [snd].
  rewrite Hnew, decide_True by done.
  assert (truthy (superseeded_by s (Some s)) = false) as Hself.
  { destruct (truthy (superseeded_by s (Some s))) eqn:Hsup; [|done].
    destruct s as [| P p l | |]; try discriminate.
    apply dmap_superseeded_by_iff in Hsup as (l' & [= <-] & Hl' & Hl).
    congruence. }
  destruct (_services d !! protocol s) as [e|].
  - destruct (truthy (superseeded_by e (Some s))) eqn:Hsup.
    + by rewrite Hself.
    + by rewrite Hsup.
  - by rewrite Hself.
Qed.

(** X8: [add_service] registers the protocol of its argument if it was not
    registered yet, and unregisters nothing; so a protocol that has a
    service keeps one through every sequence of calls. *)
Theorem registered_protocols_only_grow (d : AppleTV) :
  (∀ s : Service,
     registered_protocols (exec (add_service s) d)
     = {[protocol s]} ∪ registered_protocols d)
  ∧ (∀ ops : list Op,
       registered_protocols d ⊆ registered_protocols (exec (calls ops) d)).
Proof.
  split.
  - intros s. unfold registered_protocols, exec. rewrite add_service_run.
    cbn [snd].
    destruct (_services d !! protocol s) as [e|] eqn:He.
    + destruct (truthy (superseeded_by e (Some s))).
      * simpl. by rewrite dom_insert_L.
      * rewrite <- (insert_id _ _ _ He) at 1. by rewrite dom_insert_L.
    + simpl. by rewrite dom_insert_L.
  - intros ops P. unfold registered_protocols. intros [e He]%elem_of_dom.
    destruct (calls_entry d P e ops He) as (e' & He' & _).
    apply elem_of_dom. by exists e'.
Qed.

(** X9: through any sequence of calls, the entry of a protocol is the service
    first registered or a service that superseded it; its class, protocol
    and port stay the same, and it stays usable if it was. *)
Theorem entry_only_upgrades (d : AppleTV) (P : Z) (e : Service)
    (ops : list Op) :
  eval (get_service P) d = Return (Some e) →
  ∃ e' : Service,
    eval (get_service P) (exec (calls ops) d) = Return (Some e')
    ∧ upgrade_of e e'
    ∧ class_of e' = class_of e
    ∧ protocol e' = protocol e
    ∧ port e' = port e
    ∧ (is_usable e = true → is_usable e' = true).
Proof.
  unfold eval. rewrite get_service_run. intros [= He].
  destruct (calls_entry d P e ops He) as (e' & He' & Hup).
  exists e'. rewrite get_service_run, He'. split; [done|]. split; [done|].
  destruct Hup as [->|Hsup]; [done|].
  by apply superseeding_has_login_id in Hsup as (_ & Huse & -> & -> & ->).
Qed.

(** X10: only a DMAP service without a login id can be replaced: a service of
    another class, or a DMAP service that has a login id, stays registered
    through every sequence of calls. *)
Theorem paired_service_never_replaced (d : AppleTV) (P : Z) (s : Service)
    (ops : list Op) :
  eval (get_service P) d = Return (Some s) →
  class_of s ≠ DmapService_class ∨ has_login_id s = true →
  eval (get_service P) (exec (calls ops) d) = Return (Some s).
Proof.
  unfold eval. rewrite !get_service_run. intros [= Hs] Hkeep.
  destruct (calls_entry d P s ops Hs) as (e' & He' & Hup).
  cbn [fst]. rewrite He'. destruct Hup as [->|Hsup]; [done|].
  by rewrite has_login_id_not_superseeded in Hsup.
Qed.

End Evolution.

(** ** Selection and usability *)

Section Usability.
Context `{Const}.

Lemma usable_service_loop_cons (m : gmap Z Service) (p : Z) (l : list Z)
    (d : AppleTV) :
  usable_service_loop m (p :: l) d =
    match m !! p with
    | Some s => if is_usable s then (Return (Some s), d)
                else usable_service_loop m l d
    | None => usable_service_loop m l d
    end.
Proof.
  simpl. unfold contains, getitem, bind.
  destruct (m !! p) as [s|]; simpl; [|done]. by destruct (is_usable s).
Qed.

Lemma preferred_service_loop_cons (p : Z) (l : list Z) (d : AppleTV) :
  preferred_service_loop (p :: l) d =
    match _services d !! p with
    | Some s => (Return (Some s), d)
    | None => preferred_service_loop l d
    end.
Proof.
  simpl. unfold contains, getitem, bind, get.
  by destruct (_services d !! p) as [s|].
Qed.

Lemma usable_service_None_iff (d : AppleTV) :
  eval usable_service d = Return None ↔
  none_usable (_services d) (_supported_protocols d).
Proof.
  destruct (usable_service_run d) as (r & Hrun & Hr).
  unfold eval. rewrite Hrun. cbn [fst]. split.
  - by intros [= ->].
  - intros Hnone. destruct r as [s|]; [|done].
    destruct Hr as (l1 & p & l2 & Horder & Hp & Hs & _).
    rewrite (Hnone p s) in Hs; [done| |done].
    rewrite Horder. apply elem_of_app. right. apply list_elem_of_here.
Qed.

Lemma AppleTV_is_usable_true (d : AppleTV) :
  eval AppleTV_is_usable d = Return true ↔ some_usable d.
Proof.
  unfold some_usable. rewrite <- is_usable_values, <- any_true.
  unfold eval, AppleTV_is_usable, bind, get, ret. cbn [fst].
  split; [by intros [= ->]|by intros ->].
Qed.

Lemma calls_supported_protocols (d : AppleTV) (ops : list Op) :
  _supported_protocols (exec (calls ops) d) = _supported_protocols d.
Proof.
  apply (calls_preserve
           (λ d', _supported_protocols d' = _supported_protocols d)); [|done].
  intros d' s Hd'. unfold exec. rewrite add_service_run. simpl.
  destruct (_services d' !! protocol s) as [e|];
    [destruct (truthy (superseeded_by e (Some s)))|]; done.
Qed.

Lemma upgrade_of_usable (e e' : Service) :
  upgrade_of e e' → is_usable e = true → is_usable e' = true.
Proof.
  intros [->|Hsup] He; [done|].
  by apply superseeding_has_login_id in Hsup as (_ & Huse & _).
Qed.

(** The two selections side by side. *)
Lemma loops_agree (d : AppleTV) (l : list Z) :
  match eval (preferred_service_loop l) d with
  | Return None => usable_service_loop (_services d) l d = (Return None, d)
  | Return (Some s) =>
      is_usable s = true →
      usable_service_loop (_services d) l d = (Return (Some s), d)
  | Raise _ => False
  end.
Proof.
  induction l as [|p l IH]; [done|].
  unfold eval in *. rewrite preferred_service_loop_cons.
  rewrite usable_service_loop_cons.
  destruct (_services d !! p) as [s|]; [|done].
  cbn [fst]. by intros ->.
Qed.

(** X11: a usable device stays usable, and a device for which [usable_service]
    finds a service still has one found, through every sequence of calls. *)
Theorem usable_stays_usable (d : AppleTV) (ops : list Op) :
  (eval AppleTV_is_usable d = Return true →
   eval AppleTV_is_usable (exec (calls ops) d) = Return true)
  ∧ (∀ s : Service,
       eval usable_service d = Return (Some s) →
       ∃ s' : Service,
         eval usable_service (exec (calls ops) d) = Return (Some s')).
Proof.
  split.
  - rewrite !AppleTV_is_usable_true. intros (P & s & HP & Hs).
    destruct (calls_entry d P s ops HP) as (s' & HP' & Hup).
    exists P, s'. split; [done|]. by apply (upgrade_of_usable s).
  - intros s Hs.
    destruct (usable_service_run d) as (r & Hrun & Hr).
    unfold eval in Hs. rewrite Hrun in Hs. injection Hs as ->.
    destruct Hr as (l1 & p & l2 & Horder & Hp & Huse & _).
    destruct (calls_entry d p s ops Hp) as (s' & Hp' & Hup).
    destruct (eval usable_service (exec (calls ops) d)) as [[r'|]|e] eqn:Hr'.
    + by exists r'.
    + apply usable_service_None_iff in Hr'.
      rewrite calls_supported_protocols, Horder in Hr'.
      pose proof (upgrade_of_usable s s' Hup Huse) as Huse'.
      rewrite (Hr' p s') in Huse'; [done| |done].
      apply elem_of_app. right. apply list_elem_of_here.
    + destruct (usable_service_run (exec (calls ops) d)) as (r' & Hrun' & _).
      unfold eval in Hr'. by rewrite Hrun' in Hr'.
Qed.

(** X12: [usable_service] finds nothing when [preferred_service] finds nothing,
    returns the preferred service when that one is usable, and whenever it
    finds a service [preferred_service] finds one too. *)
Theorem usable_service_versus_preferred (d : AppleTV) :
  (eval preferred_service d = Return None →
   eval usable_service d = Return None)
  ∧ (∀ s : Service,
       eval preferred_service d = Return (Some s) → is_usable s = true →
       eval usable_service d = Return (Some s))
  ∧ (∀ s : Service,
       eval usable_service d = Return (Some s) →
       ∃ s' : Service, eval preferred_service d = Return (Some s')).
Proof.
  pose proof (loops_agree d (_supported_protocols d)) as Hloops.
  assert (eval preferred_service d
          = eval (preferred_service_loop (_supported_protocols d)) d) as Hpref
    by done.
  assert (∀ r, usable_service_loop (_services d) (_supported_protocols d) d
               = (Return r, d) → eval usable_service d = Return r) as Huse.
  { intros r Hr. unfold eval, usable_service, bind, get. simpl.
    by rewrite Hr. }
  rewrite Hpref.
  destruct (eval (preferred_service_loop (_supported_protocols d)) d)
    as [[s0|]|e]; [| |done].
  - split; [done|]. split.
    + intros s [= ->] Hs. by apply Huse, Hloops.
    + intros s _. by exists s0.
  - split; [intros _; by apply Huse|]. split; [done|].
    intros s Hs. rewrite (Huse _ Hloops) in Hs. discriminate.
Qed.

(** X13: on a device built by the constructor and any sequence of calls, the
    service that [usable_service] or [preferred_service] returns has a
    protocol of the preference order given at construction, and it is the
    service registered for that protocol. *)
Theorem selection_within_preference_order (address name : string)
    (supported_services : option (list Z)) (ops : list Op) (s : Service) :
  let d := exec (calls ops) (AppleTV_init address name supported_services) in
  eval usable_service d = Return (Some s)
  ∨ eval preferred_service d = Return (Some s) →
  protocol s ∈ default _SUPPORTED_PROTOCOLS supported_services
  ∧ eval (get_service (protocol s)) d = Return (Some s).
Proof.
  intros d Hsel.
  destruct (calls_preserve keyed_by_protocol add_service_keyed ops
              (AppleTV_init address name supported_services)) as [_ Hkey].
  { intros P s'. simpl. by rewrite lookup_empty. }
  fold d in Hkey.
  assert (_supported_protocols d
          = default _SUPPORTED_PROTOCOLS supported_services) as Horder
    by apply calls_supported_protocols.
  assert (∃ l1 p l2, _supported_protocols d = l1 ++ p :: l2
                     ∧ _services d !! p = Some s) as (l1 & p & l2 & Hl & Hp).
  { destruct Hsel as [Hsel|Hsel]; unfold eval in Hsel.
    - destruct (usable_service_run d) as (r & Hrun & Hr).
      rewrite Hrun in Hsel. injection Hsel as ->.
      destruct Hr as (l1 & p & l2 & Hl & Hp & _). by exists l1, p, l2.
    - destruct (preferred_service_run d) as (r & Hrun & Hr).
      rewrite Hrun in Hsel. injection Hsel as ->.
      destruct Hr as (l1 & p & l2 & Hl & Hp & _). by exists l1, p, l2. }
  rewrite (Hkey p s Hp). split.
  - rewrite <- Horder, Hl. apply elem_of_app. right. apply list_elem_of_here.
  - unfold eval. by rewrite get_service_run, Hp.
Qed.

End Usability.

(** ** Devices built from constructed services *)

Section Constructed.
Context `{Const}.

Lemma add_services_cons (s : Service) (l : list Service) (d : AppleTV) :
  add_services (s :: l) d = add_services l (exec (add_service s) d).
Proof.
  unfold add_services. simpl.
  rewrite (exec_bind _ _ _ _ _ (call_run (Op_add_service s) d)). done.
Qed.

Lemma from_constructor_usable (s : Service) :
  from_constructor s → is_usable s = true →
  protocol s ∈ _SUPPORTED_PROTOCOLS.
Proof.
  intros [(P & p & ->)|[(l & p & ->)|[(p & ->)|(p & ->)]]] Hs;
    try discriminate; unfold _SUPPORTED_PROTOCOLS; simpl.
  - apply elem_of_cons. right. apply list_elem_of_here.
  - apply list_elem_of_here.
Qed.

(** Usable services sit under protocols of the preference order. *)
Lemma add_services_usable_in_order (l : list Service) (d : AppleTV) :
  Forall from_constructor l →
  (∀ P s, _services d !! P = Some s → is_usable s = true →
          P ∈ _supported_protocols d) →
  _supported_protocols d = _SUPPORTED_PROTOCOLS →
  let d' := exec (add_services l) d in
  _supported_protocols d' = _SUPPORTED_PROTOCOLS
  ∧ ∀ P s, _services d' !! P = Some s → is_usable s = true →
           P ∈ _supported_protocols d'.
Proof.
  intros Hl. revert d. induction Hl as [|s l Hs Hl IH]; intros d Hd Horder.
  - done.
  - simpl. unfold exec. rewrite add_services_cons.
    assert (_supported_protocols (exec (add_service s) d)
            = _supported_protocols d) as Hsame.
    { unfold exec. rewrite add_service_run. cbn [snd].
      destruct (_services d !! protocol s) as [e0|];
        [destruct (truthy (superseeded_by e0 (Some s)))|]; done. }
    apply IH; [|by rewrite Hsame].
    intros P e. rewrite add_service_lookup, Hsame. case_decide as HP.
    + intros He Huse.
      assert (e = s ∨ _services d !! P = Some e) as [->|He'].
      { destruct (_services d !! P) as [e0|]; [|left; congruence].
        destruct (truthy (superseeded_by e0 (Some s)));
          [left|right]; congruence. }
      * rewrite HP, Horder. by apply from_constructor_usable.
      * by apply (Hd P e).
    + apply Hd.
Qed.

(** X14: with the default preference order and services built by the
    constructors, the device is usable exactly when [usable_service] finds a
    service. *)
Theorem default_order_usable_iff (address name : string)
    (l : list Service) :
  Forall from_constructor l →
  let d := exec (add_services l) (AppleTV_init address name None) in
  eval AppleTV_is_usable d = Return true ↔
  ∃ s : Service, eval usable_service d = Return (Some s).
Proof.
  intros Hl d.
  destruct (add_services_usable_in_order l (AppleTV_init address name None) Hl)
    as [Horder Hin]; [|done|].
  { intros P s. simpl. by rewrite lookup_empty. }
  fold d in Horder, Hin.
  rewrite AppleTV_is_usable_true. split.
  - intros (P & s & HP & Hs).
    destruct (eval usable_service d) as [[r|]|e] eqn:Hr.
    + by exists r.
    + apply usable_service_None_iff in Hr.
      rewrite (Hr P s) in Hs; [done| |done]. by apply (Hin P s).
    + destruct (usable_service_run d) as (r & Hrun & _).
      unfold eval in Hr. by rewrite Hrun in Hr.
  - intros (s & Hs).
    destruct (usable_service_run d) as (r & Hrun & Hr).
    unfold eval in Hs. rewrite Hrun in Hs. injection Hs as ->.
    destruct Hr as (l1 & p & l2 & _ & Hp & Huse & _). by exists p, s.
Qed.

(** X15: the first AirPlay service registered is the one [airplay_service]
    returns from then on, whatever is added later. *)
Theorem first_airplay_service_is_kept (d : AppleTV) (p : Z)
    (ops : list Op) :
  eval (get_service PROTOCOL_AIRPLAY) d = Return None →
  eval airplay_service (exec (add_service (AirPlayService p);; calls ops) d)
  = Return (AirPlayService p).
Proof.
  unfold eval at 1. rewrite get_service_run. intros [= Hnone].
  unfold exec. rewrite (exec_bind _ _ _ _ _ (add_service_run d _)).
  cbn [protocol AirPlayService]. rewrite Hnone.
  set (d1 := with_services d _).
  assert (_services d1 !! PROTOCOL_AIRPLAY = Some (AirPlayService p)) as Hp.
  { unfold d1. simpl. by rewrite lookup_insert_eq. }
  destruct (calls_entry d1 _ _ ops Hp) as (e' & He' & Hup).
  unfold eval. rewrite airplay_service_run. cbn [fst].
  unfold exec in He'. rewrite He'. simpl.
  destruct Hup as [->|Hsup]; [done|]. discriminate.
Qed.

(** X16: services of different protocols can be added in either order: every
    lookup and both selections give the same result. *)
Theorem add_service_commutes (d : AppleTV) (a b : Service) :
  protocol a ≠ protocol b →
  let d1 := exec (add_service a;; add_service b) d in
  let d2 := exec (add_service b;; add_service a) d in
  (∀ P : Z, eval (get_service P) d1 = eval (get_service P) d2)
  ∧ eval usable_service d1 = eval usable_service d2
  ∧ eval preferred_service d1 = eval preferred_service d2.
Proof.
  intros Hab d1 d2.
  assert (∀ s s', exec (add_service s;; add_service s') d
                  = exec (add_service s') (exec (add_service s) d)) as Hseq.
  { intros s s'. unfold exec.
    rewrite (exec_bind _ _ _ _ _ (add_service_run d s)).
    by rewrite (add_service_run d s). }
  assert (d1 = exec (add_service b) (exec (add_service a) d)) as Hd1
    by apply Hseq.
  assert (d2 = exec (add_service a) (exec (add_service b) d)) as Hd2
    by apply Hseq.
  assert (∀ d0 s, exec (add_service s) d0
                  = with_services d0 (_services (exec (add_service s) d0)))
    as Hshape.
  { intros d0 s. unfold exec. rewrite add_service_run. cbn [snd].
    destruct (_services d0 !! protocol s) as [e|];
      [destruct (truthy (superseeded_by e (Some s)))|]; try done.
    by destruct d0. }
  assert (_services d1 = _services d2) as Hmap.
  { apply map_eq. intros P. rewrite Hd1, Hd2, !add_service_lookup.
    repeat case_decide; congruence. }
  assert (∀ s s', exec (add_service s') (exec (add_service s) d)
                  = with_services d (_services (exec (add_service s')
                                                  (exec (add_service s) d))))
    as Hshape2.
  { intros s s'. rewrite (Hshape (exec (add_service s) d) s') at 1.
    by rewrite (Hshape d s) at 1. }
  assert (d1 = d2) as Heq.
  { pose proof (Hshape2 a b) as H1. pose proof (Hshape2 b a) as H2.
    rewrite <- Hd1 in H1. rewrite <- Hd2 in H2.
    rewrite H1, H2. by rewrite Hmap. }
  by rewrite Heq.
Qed.

End Constructed.

(** ** Construction and comparison *)

Section Objects.
Context `{Const}.

(** X17: [DmapService] never has port 0: a port left out or given as 0 becomes
    3689, any other port is kept. So a service created with no port, with
    port 0 or with port 3689 is the same service. *)
Theorem DmapService_port_default (login_id : option string) :
  (∀ p : option Z, port (DmapService login_id p) ≠ 0)
  ∧ (∀ v : Z, v ≠ 0 → port (DmapService login_id (Some v)) = v)
  ∧ DmapService login_id None = DmapService login_id (Some 3689)
  ∧ DmapService login_id (Some 0) = DmapService login_id (Some 3689).
Proof.
  split; [|split; [|done]].
  - intros [v|]; simpl; [|done].
    destruct (Z.eqb_spec v 0); done.
  - intros v Hv. simpl. by destruct (Z.eqb_spec v 0).
Qed.

(** X18: comparison of devices is an equivalence: a device equals itself, the
    result does not depend on which side is asked, and equality passes
    along a chain. A device never equals an object that is no device. *)
Theorem AppleTV_eq_equivalence (out : list string) :
  (∀ a : AppleTV, eval (AppleTV_eq a (ObjAppleTV a)) out = Return true)
  ∧ (∀ a b : AppleTV,
       eval (AppleTV_eq a (ObjAppleTV b)) out
       = eval (AppleTV_eq b (ObjAppleTV a)) out)
  ∧ (∀ a b c : AppleTV,
       eval (AppleTV_eq a (ObjAppleTV b)) out = Return true →
       eval (AppleTV_eq b (ObjAppleTV c)) out = Return true →
       eval (AppleTV_eq a (ObjAppleTV c)) out = Return true)
  ∧ (∀ (a : AppleTV) (s : Service),
       AppleTV_eq a (ObjService s) out = (Return false, out)
       ∧ AppleTV_eq a ObjNone out = (Return false, out)).
Proof.
  unfold eval. split; [|split; [|split]].
  - intros a. rewrite AppleTV_eq_run. cbn [fst]. by rewrite String.eqb_refl.
  - intros a b. rewrite !AppleTV_eq_run. cbn [fst].
    by rewrite String.eqb_sym.
  - intros a b c. rewrite !AppleTV_eq_run. cbn [fst].
    intros [= Hab%String.eqb_eq] [= Hbc%String.eqb_eq].
    f_equal. apply String.eqb_eq. congruence.
  - done.
Qed.

End Objects.

(** ** The further properties on the example devices *)

Section MoreWitnesses.
#[local] Existing Instance pyatv_const.

Lemma superseeded_by_one_step_witness :
  is_usable (DmapService (Some "x"%string) None) = true
  ∧ truthy (superseeded_by (DmapService (Some "x"%string) None)
                           (Some (DmapService (Some "y"%string) None)))
    = false.
Proof.
  destruct (proj2 (proj2 superseeded_by_one_step)
              (DmapService None None) (DmapService (Some "x"%string) None))
    as [Huse Hkeep]; [reflexivity|].
  split; [exact Huse | apply Hkeep].
Defined.

Lemma entry_only_upgrades_witness :
  ∃ e' : Service,
    eval (get_service PROTOCOL_DMAP)
         (exec (calls [Op_add_service (DmapService (Some "x"%string) None);
                       Op_add_service (DmapService None (Some 5000))])
               unpaired_device)
    = Return (Some e')
    ∧ port e' = 3689.
Proof.
  destruct (entry_only_upgrades unpaired_device PROTOCOL_DMAP
              (DmapService None None)
              [Op_add_service (DmapService (Some "x"%string) None);
               Op_add_service (DmapService None (Some 5000))])
    as (e' & Hget & _ & _ & _ & Hport & _); [reflexivity|].
  exists e'. split; [exact Hget | exact Hport].
Defined.

Lemma paired_service_never_replaced_witness :
  eval (get_service PROTOCOL_DMAP)
       (exec (calls [Op_add_service (DmapService (Some "y"%string) None);
                     Op_add_service (DmapService None None)])
             paired_device)
  = Return (Some (DmapService (Some "x"%string) None)).
Proof.
  apply (paired_service_never_replaced paired_device PROTOCOL_DMAP
           (DmapService (Some "x"%string) None));
    [reflexivity | right; reflexivity].
Defined.

Lemma usable_stays_usable_witness :
  eval AppleTV_is_usable
       (exec (calls [Op_add_service (DmapService None None);
                     Op_add_service (MrpService 1)]) paired_device)
  = Return true.
Proof.
  apply (proj1 (usable_stays_usable paired_device
                  [Op_add_service (DmapService None None);
                   Op_add_service (MrpService 1)])).
  reflexivity.
Defined.

Lemma usable_service_versus_preferred_witness :
  eval usable_service gen4_device = Return (Some (MrpService 49152))
  ∧ eval usable_service fresh_device = Return None.
Proof.
  split.
  - apply (proj1 (proj2 (usable_service_versus_preferred gen4_device)));
      reflexivity.
  - apply (proj1 (usable_service_versus_preferred fresh_device)).
    reflexivity.
Defined.

Lemma selection_within_preference_order_witness :
  protocol (DmapService None None) ∈ [PROTOCOL_DMAP; PROTOCOL_MRP]
  ∧ eval (get_service (protocol (DmapService None None)))
         (exec (calls [Op_add_service (DmapService None None);
                       Op_add_service (MrpService 49152);
                       Op_add_service (AirPlayService 7000)])
               (AppleTV_init "10.0.0.1" "Apple TV"
                             (Some [PROTOCOL_DMAP; PROTOCOL_MRP])))
    = Return (Some (DmapService None None)).
Proof.
  apply (selection_within_preference_order
           "10.0.0.1" "Apple TV" (Some [PROTOCOL_DMAP; PROTOCOL_MRP])
           [Op_add_service (DmapService None None);
            Op_add_service (MrpService 49152);
            Op_add_service (AirPlayService 7000)]
           (DmapService None None)).
  right. reflexivity.
Defined.

Lemma default_order_usable_iff_witness :
  eval AppleTV_is_usable
       (exec (add_services [AirPlayService 7000; DmapService None None;
                            MrpService 49152])
             (AppleTV_init "10.0.0.1" "Apple TV" None))
  = Return true.
Proof.
  apply (default_order_usable_iff "10.0.0.1" "Apple TV"
           [AirPlayService 7000; DmapService None None; MrpService 49152]).
  - constructor; [right; right; right; by exists 7000|].
    constructor; [right; left; by exists None, None|].
    constructor; [right; right; left; by exists 49152|].
    constructor.
  - exists (MrpService 49152). reflexivity.
Defined.

Lemma first_airplay_service_is_kept_witness :
  eval airplay_service
       (exec (add_service (AirPlayService 7001);;
              calls [Op_add_service (AirPlayService 7000);
                     Op_add_service (Base PROTOCOL_AIRPLAY 80)])
             fresh_device)
  = Return (AirPlayService 7001).
Proof.
  apply (first_airplay_service_is_kept fresh_device 7001). reflexivity.
Defined.

Lemma add_service_commutes_witness :
  eval usable_service
       (exec (add_service (DmapService (Some "x"%string) None);;
              add_service (MrpService 49152)) fresh_device)
  = eval usable_service
         (exec (add_service (MrpService 49152);;
                add_service (DmapService (Some "x"%string) None))
               fresh_device).
Proof.
  apply (add_service_commutes fresh_device
           (DmapService (Some "x"%string) None) (MrpService 49152)).
  discriminate.
Defined.

Lemma DmapService_port_default_witness :
  port (DmapService None (Some 5000)) = 5000.
Proof.
  apply (proj1 (proj2 (DmapService_port_default None))). discriminate.
Defined.

Lemma AppleTV_eq_equivalence_witness :
  eval (AppleTV_eq fresh_device (ObjAppleTV gen4_device)) [] = Return true.
Proof.
  apply (proj1 (proj2 (proj2 (AppleTV_eq_equivalence [])))
           fresh_device paired_device gen4_device); reflexivity.
Defined.

End MoreWitnesses.
